(** * cache/blobs/compression.go

    A shallow embedding of the layer compression helpers of package
    [blobs]: compression sniffing ([detectCompressionType]), the media
    type of a freshly detected layer ([DetectLayerMediaType]), the walk
    over a chain of cache references ([GetMediaTypeForLayers]) and the
    conversion between the OCI and the Docker naming conventions
    ([ConvertLayerMediaType]). *)

From Stdlib.Strings Require Import Byte.
From Stdlib Require Import ZArith.
From stdpp Require Import base option list strings gmap.

Open Scope string_scope.
Open Scope list_scope.
Open Scope nat_scope.

(** ** Data model *)

(** [digest.Digest] is a Go string type. *)
Abbreviation Digest := string.

(** [type CompressionType int], with the three declared constants. *)
Definition CompressionType := Z.

Definition Uncompressed : CompressionType := 0%Z.
Definition Gzip : CompressionType := 1%Z.
Definition UnknownCompression : CompressionType := (-1)%Z.

Definition DefaultCompression : CompressionType := Gzip.

(** [func (ct CompressionType) String() string] *)
Definition CompressionType_String (ct : CompressionType) : string :=
  if Z.eqb ct Uncompressed then "uncompressed"
  else if Z.eqb ct Gzip then "gzip"
  else "unknown".

(** The four layer media types.  They are constants of the imported
    packages [ocispec] (image-spec/specs-go/v1) and [images]
    (containerd/images); the values are the ones those packages declare. *)
Module ocispec.
Definition MediaTypeImageLayer : string :=
  "application/vnd.oci.image.layer.v1.tar".
Definition MediaTypeImageLayerGzip : string :=
  "application/vnd.oci.image.layer.v1.tar+gzip".
End ocispec.

Module images.
Definition MediaTypeDockerSchema2Layer : string :=
  "application/vnd.docker.image.rootfs.diff.tar".
Definition MediaTypeDockerSchema2LayerGzip : string :=
  "application/vnd.docker.image.rootfs.diff.tar.gzip".
End images.

(** The canonical media types, as a list. *)
Definition canonical_media_types : list string :=
  [ ocispec.MediaTypeImageLayer; ocispec.MediaTypeImageLayerGzip;
    images.MediaTypeDockerSchema2Layer; images.MediaTypeDockerSchema2LayerGzip ].

(** Go [error] values.  [EOF] is [io.EOF]; [Failure] stands for any other
    error value handed over by a collaborator (the content store, a
    reader); [Errorf] is an error built by [errors.Errorf] in this file,
    kept as its format and its argument. *)
Inductive error : Type :=
| EOF
| Failure (msg : string)
| Errorf (format : string) (arg : string).

#[global] Instance error_eq_dec : EqDecision error.
Proof. solve_decision. Defined.

(** A line written through [logrus.Warnf], kept as format and argument. *)
Inductive diagnostic : Type :=
| Warnf (format : string) (arg : string).

(** ** Readers and the content store *)

(** [io.Reader]: one call of [Read(p)] with [len(p) = size] hands back the
    bytes it copied to the front of [p] and an error.  A reader obeying
    the interface's contract copies at most [size] bytes. *)
Class Reader (R : Type) : Type :=
  Read : R → nat → list byte * option error.

(** A reader over an in-memory byte stream, positioned at its start, as
    [bytes.NewReader] gives one: it reports exhaustion when nothing is
    left and otherwise returns as many bytes as fit. *)
Record bytesReader : Type := bytes_NewReader { stream : list byte }.

#[global] Instance bytesReader_Reader : Reader bytesReader :=
  λ r size,
    match stream r with
    | [] => ([], Some EOF)
    | _ => (take size (stream r), None)
    end.

(** A reader whose [Read] delivers [delivered] and reports [reported]:
    short reads, reads ending in [io.EOF] and failing reads. *)
Record scriptedReader : Type :=
  Scripted { delivered : list byte; reported : option error }.

#[global] Instance scriptedReader_Reader : Reader scriptedReader :=
  λ r size, (take size (delivered r), reported r).

(** [content.Store], as far as this file uses it: [ReaderAt] opens the
    blob of a digest or fails.  The opened [content.ReaderAt] is kept as
    the reader [content.NewReader] wraps around it. *)
Record Store (R : Type) : Type :=
  { ReaderAt : Digest → R + error }.
Arguments ReaderAt {R} _ _.

(** ** detectCompressionType *)

(** [bytes.Equal] *)
Fixpoint bytes_Equal (a b : list byte) : bool :=
  match a, b with
  | [], [] => true
  | x :: a', y :: b' => Byte.eqb x y && bytes_Equal a' b'
  | _, _ => false
  end.

(** The signature table ranged over by [detectCompressionType].  The Go
    map has a single entry, so its iteration order is immaterial. *)
Definition signatures : list (CompressionType * list byte) :=
  [ (Gzip, [x1f; x8b; x08]) ].

(** [var buf [10]byte] after [cr.Read(buf[:])] copied [data] into it. *)
Definition fill_buf (data : list byte) : list byte :=
  take 10 (data ++ replicate (10 - length data) x00).

(** The [for c, m := range ...] loop: the first signature that fits in
    the [n] bytes read and equals the front of [buf] wins. *)
Fixpoint match_signatures (sigs : list (CompressionType * list byte))
    (n : nat) (buf : list byte) : CompressionType :=
  match sigs with
  | [] => Uncompressed
  | (c, m) :: rest =>
      if (n <? length m)%nat then match_signatures rest n buf
      else if bytes_Equal m (take (length m) buf) then c
      else match_signatures rest n buf
  end.

Definition detectCompressionType `{Reader R} (cr : R)
    : CompressionType * option error :=
  let '(data, err) := Read cr 10 in
  let n := length data in
  let buf := fill_buf data in
  match err with
  | Some e =>
      if bool_decide (e ≠ EOF) then (UnknownCompression, Some e)
      else (match_signatures signatures n buf, None)
  | None => (match_signatures signatures n buf, None)
  end.

(** ** DetectLayerMediaType *)

(** The [switch ct] at the end of [DetectLayerMediaType]. *)
Definition DetectLayerMediaType_switch (ct : CompressionType) (id : Digest)
    (oci : bool) : string * option error :=
  if Z.eqb ct Uncompressed then
    if oci then (ocispec.MediaTypeImageLayer, None)
    else (images.MediaTypeDockerSchema2Layer, None)
  else if Z.eqb ct Gzip then
    if oci then (ocispec.MediaTypeImageLayerGzip, None)
    else (images.MediaTypeDockerSchema2LayerGzip, None)
  else ("", Some (Errorf "failed to detect layer %v compression type" id)).

(** [defer ra.Close()] has no part in what is returned and is left out. *)
Definition DetectLayerMediaType `{Reader R} (cs : Store R) (id : Digest)
    (oci : bool) : string * option error :=
  match ReaderAt cs id with
  | inr err => ("", Some err)
  | inl ra =>
      match detectCompressionType ra with
      | (_, Some err) => ("", Some err)
      | (ct, None) => DetectLayerMediaType_switch ct id oci
      end
  end.

(** ** ConvertLayerMediaType *)

Definition toDockerLayerType : gmap string string :=
  <[ocispec.MediaTypeImageLayer := images.MediaTypeDockerSchema2Layer]>
  (<[images.MediaTypeDockerSchema2Layer := images.MediaTypeDockerSchema2Layer]>
  (<[ocispec.MediaTypeImageLayerGzip := images.MediaTypeDockerSchema2LayerGzip]>
  (<[images.MediaTypeDockerSchema2LayerGzip := images.MediaTypeDockerSchema2LayerGzip]>
   ∅))).

Definition toOCILayerType : gmap string string :=
  <[ocispec.MediaTypeImageLayer := ocispec.MediaTypeImageLayer]>
  (<[images.MediaTypeDockerSchema2Layer := ocispec.MediaTypeImageLayer]>
  (<[ocispec.MediaTypeImageLayerGzip := ocispec.MediaTypeImageLayerGzip]>
  (<[images.MediaTypeDockerSchema2LayerGzip := ocispec.MediaTypeImageLayerGzip]>
   ∅))).

(** Indexing a Go [map[string]string]: a missing key reads as [""]. *)
Definition map_index (m : gmap string string) (k : string) : string :=
  default "" (m !! k).

(** [ConvertLayerMediaType] returns the converted string; the second
    component lists what it wrote to the log. *)
Definition ConvertLayerMediaType (mediaType : string) (oci : bool)
    : string * list diagnostic :=
  let converted :=
    if oci then map_index toOCILayerType mediaType
    else map_index toDockerLayerType mediaType in
  if bool_decide (converted = "") then
    (mediaType, [Warnf "unhandled conversion for mediatype %q" mediaType])
  else (converted, []).

(** ** Cache references *)

(** Modelled from the spec: [DiffPair] is declared in another file of
    package [blobs]; it pairs the digest of the uncompressed layer with
    the digest of the stored blob. *)
Record DiffPair : Type := { DiffID : Digest; Blobsum : Digest }.

Module cache.

(** Modelled from the spec: what [Info()] of a cache reference
    exposes, as far as this file reads it. *)
Record RefInfo : Type :=
  { DiffID : Digest; Blob : Digest; MediaType : string }.

(** Modelled from the spec: the chain of immutable layer snapshots a
    reference points into, from a layer up to its root ancestor. *)
Inductive cacheRecord : Type :=
| Root (info : RefInfo)
| Layer (info : RefInfo) (parent : cacheRecord).

(** What happens to handles is recorded in a trace. *)
Inductive event : Type :=
| Acquired (h : nat)
| Released (h : nat).

#[global] Instance event_eq_dec : EqDecision event.
Proof. solve_decision. Defined.

(** The cache manager's view of handles: the next unused handle
    number and the trace so far. *)
Record refs : Type := { next : nat; trace : list event }.

(** Modelled from the spec: [cache.ImmutableRef], a handle on a
    snapshot.  The Go value may be [nil], which is [None] of
    [option ImmutableRef]. *)
Record ImmutableRef : Type := { handle : nat; record : cacheRecord }.

(** Go code running against the cache: it threads [refs] and may
    panic ([None]). *)
Definition Go (A : Type) : Type := refs → option (A * refs).

#[global] Instance Go_ret : MRet Go := λ A x s, Some (x, s).
#[global] Instance Go_bind : MBind Go :=
  λ A B f m s, match m s with
               | Some (x, s') => f x s'
               | None => None
               end.

Definition panic {A : Type} : Go A := λ _, None.

(** A new handle on [r], numbered [next]. *)
Definition acquire (r : cacheRecord) : Go ImmutableRef :=
  λ s, Some ({| handle := next s; record := r |},
             {| next := S (next s);
                trace := trace s ++ [Acquired (next s)] |}).

(** Modelled from the spec: [Info()] reads the snapshot's record. *)
Definition Info (ref : ImmutableRef) : RefInfo :=
  match record ref with
  | Root info => info
  | Layer info _ => info
  end.

(** Modelled from the spec: [Clone()] is a new handle sharing the
    same snapshot. *)
Definition Clone (ref : ImmutableRef) : Go ImmutableRef :=
  acquire (record ref).

(** Modelled from the spec: [Parent()] is a new handle on the parent
    snapshot, or [nil] at the root. *)
Definition Parent (ref : ImmutableRef) : Go (option ImmutableRef) :=
  match record ref with
  | Root _ => mret None
  | Layer _ p => parent ← acquire p; mret (Some parent)
  end.

(** Modelled from the spec: [Release()] gives up this handle's claim. *)
Definition Release (ref : ImmutableRef) : Go unit :=
  λ s, Some ((), {| next := next s;
                    trace := trace s ++ [Released (handle ref)] |}).

(** The records of a chain, child first. *)
Fixpoint chain (r : cacheRecord) : list RefInfo :=
  match r with
  | Root info => [info]
  | Layer info p => info :: chain p
  end.

(** The handles acquired, and the handles released, along a trace. *)
Definition acquired (evs : list event) : list nat :=
  omap (λ e, match e with Acquired h => Some h | Released _ => None end) evs.
Definition released (evs : list event) : list nat :=
  omap (λ e, match e with Released h => Some h | Acquired _ => None end) evs.

End cache.

(** ** GetMediaTypeForLayers *)

(** [l[i]] and [l[i] = x] on a Go slice, with a Go [int] index: out of
    range they panic. *)
Definition slice_get {A : Type} (l : list A) (i : Z) : cache.Go A :=
  if (i <? 0)%Z then cache.panic
  else match l !! Z.to_nat i with
       | Some x => mret x
       | None => cache.panic
       end.

Definition slice_set {A : Type} (l : list A) (i : Z) (x : A)
    : cache.Go (list A) :=
  if ((i <? 0) || (Z.of_nat (length l) <=? i))%Z then cache.panic
  else mret (<[Z.to_nat i := x]> l).

(** [len(diffPairs)-1-i] *)
Definition mirror (diffPairs : list DiffPair) (i : nat) : Z :=
  (Z.of_nat (length diffPairs) - 1 - Z.of_nat i)%Z.

(** [info.DiffID == dp.DiffID && info.Blob == dp.Blobsum] *)
Definition hashes_agree (info : cache.RefInfo) (dp : DiffPair) : bool :=
  bool_decide (cache.DiffID info = DiffID dp)
  && bool_decide (cache.Blob info = Blobsum dp).

(** The body of [for i := range diffPairs], run for the indices [idxs].
    It hands back [tref] and [layerTypes] as the loop leaves them. *)
Fixpoint GetMediaTypeForLayers_loop (diffPairs : list DiffPair)
    (idxs : list nat) (tref : cache.ImmutableRef) (layerTypes : list string)
    : cache.Go (option cache.ImmutableRef * list string) :=
  match idxs with
  | [] => mret (Some tref, layerTypes)
  | i :: idxs' =>
      dp ← slice_get diffPairs (mirror diffPairs i);
      let info := cache.Info tref in
      if negb (hashes_agree info dp)
      then mret (Some tref, layerTypes)
      else
        layerTypes ←
          slice_set layerTypes (mirror diffPairs i) (cache.MediaType info);
        parent ← cache.Parent tref;
        cache.Release tref;;
        match parent with
        | None => mret (None, layerTypes)
        | Some tref => GetMediaTypeForLayers_loop diffPairs idxs' tref layerTypes
        end
  end.

Definition GetMediaTypeForLayers (diffPairs : list DiffPair)
    (ref : option cache.ImmutableRef) : cache.Go (list string) :=
  let layerTypes := replicate (length diffPairs) "" in
  match ref with
  | None => mret layerTypes
  | Some ref =>
      tref ← cache.Clone ref;
      '(tref, layerTypes) ←
        GetMediaTypeForLayers_loop diffPairs (seq 0 (length diffPairs))
          tref layerTypes;
      match tref with
      | Some tref => cache.Release tref;; mret layerTypes
      | None => mret layerTypes
      end
  end.

(** The state a caller starts from when it holds the handles below [n]. *)
Definition refs_at (n : nat) : cache.refs :=
  {| cache.next := n; cache.trace := [] |}.

(** A reference held by the caller, with handle number [0]. *)
Definition held (r : cache.cacheRecord) : option cache.ImmutableRef :=
  Some {| cache.handle := 0; cache.record := r |}.

(** ** Notions used to state the properties of the walk *)

(** The reference's hashes are the ones of the pair. *)
Definition agrees (info : cache.RefInfo) (dp : DiffPair) : Prop :=
  cache.DiffID info = DiffID dp ∧ cache.Blob info = Blobsum dp.

(** How many records, from the child on, agree with the pairs taken in
    the same order ([dps] is [diffPairs] reversed). *)
Fixpoint agreeing (infos : list cache.RefInfo) (dps : list DiffPair) : nat :=
  match infos, dps with
  | info :: infos', dp :: dps' =>
      if hashes_agree info dp then S (agreeing infos' dps') else 0
  | _, _ => 0
  end.

(** Step [i] of the walk, for [i] below [len(diffPairs)]: the record at
    chain position [i], child first, and the pair it is compared with,
    [diffPairs[len(diffPairs)-1-i]]. *)
Definition walk_step (diffPairs : list DiffPair) (r : cache.cacheRecord)
    (i : nat) : option (cache.RefInfo * DiffPair) :=
  if decide (i < length diffPairs) then
    info ← cache.chain r !! i;
    dp ← diffPairs !! (length diffPairs - 1 - i);
    Some (info, dp)
  else None.

(** The first mismatch of the walk is at chain position [k]. *)
Definition first_mismatch (diffPairs : list DiffPair) (r : cache.cacheRecord)
    (k : nat) : Prop :=
  (∃ info dp, walk_step diffPairs r k = Some (info, dp) ∧ ¬ agrees info dp)
  ∧ ∀ i info dp, i < k → walk_step diffPairs r i = Some (info, dp) →
                 agrees info dp.

(** The number of entries that are not the empty string. *)
Definition filled_entries (layerTypes : list string) : nat :=
  length (filter (λ mt, mt ≠ "") layerTypes).

(** The handle events of a walk that holds handle [a] and moves on to
    [p] parents before it lets go: each parent is acquired before the
    handle on its child is released. *)
Fixpoint hand_over (a p : nat) : list cache.event :=
  match p with
  | 0 => [cache.Released a]
  | S p' => cache.Acquired (S a) :: cache.Released a :: hand_over (S a) p'
  end.

(** ** Sample inputs *)

Module Sample.

Definition gzip_blob : list byte :=
  [x1f; x8b; x08; x00; x00; x00; x00; x00; x00; x03; x4b; x4c].

(** Two layers: a base layer and a layer on top of it. *)
Definition base_pair : DiffPair :=
  {| DiffID := "sha256:d0"; Blobsum := "sha256:b0" |}.
Definition top_pair : DiffPair :=
  {| DiffID := "sha256:d1"; Blobsum := "sha256:b1" |}.

Definition base : cache.RefInfo :=
  {| cache.DiffID := "sha256:d0"; cache.Blob := "sha256:b0";
     cache.MediaType := images.MediaTypeDockerSchema2LayerGzip |}.
Definition top : cache.RefInfo :=
  {| cache.DiffID := "sha256:d1"; cache.Blob := "sha256:b1";
     cache.MediaType := ocispec.MediaTypeImageLayer |}.

(** The base layer stored under another blob, the top layer stored
    under another blob, and the base layer with no media type on
    record. *)
Definition base_reblobbed : cache.RefInfo :=
  {| cache.DiffID := "sha256:d0"; cache.Blob := "sha256:b9";
     cache.MediaType := images.MediaTypeDockerSchema2LayerGzip |}.
Definition top_reblobbed : cache.RefInfo :=
  {| cache.DiffID := "sha256:d1"; cache.Blob := "sha256:b8";
     cache.MediaType := ocispec.MediaTypeImageLayer |}.
Definition base_unlabelled : cache.RefInfo :=
  {| cache.DiffID := "sha256:d0"; cache.Blob := "sha256:b0";
     cache.MediaType := "" |}.

(** A store with one gzip blob, one empty blob and one blob whose
    read breaks off; every other digest is not found. *)
Definition store : Store scriptedReader :=
  {| ReaderAt := λ id,
       if bool_decide (id = "sha256:gzip") then
         inl (Scripted gzip_blob None)
       else if bool_decide (id = "sha256:empty") then
         inl (Scripted [] (Some EOF))
       else if bool_decide (id = "sha256:broken") then
         inl (Scripted [x1f; x8b] (Some (Failure "unexpected reset")))
       else inr (Failure "not found") |}.

End Sample.

(** ** Conversion between the conventions *)

Lemma canonical_cases (m : string) :
  m ∈ canonical_media_types →
  m = ocispec.MediaTypeImageLayer ∨ m = ocispec.MediaTypeImageLayerGzip ∨
  m = images.MediaTypeDockerSchema2Layer ∨
  m = images.MediaTypeDockerSchema2LayerGzip.
Proof.
  unfold canonical_media_types.
  rewrite !elem_of_cons, elem_of_nil. tauto.
Qed.

Lemma not_canonical_cases (m : string) :
  m ∉ canonical_media_types →
  ocispec.MediaTypeImageLayer ≠ m ∧ ocispec.MediaTypeImageLayerGzip ≠ m ∧
  images.MediaTypeDockerSchema2Layer ≠ m ∧
  images.MediaTypeDockerSchema2LayerGzip ≠ m.
Proof.
  unfold canonical_media_types.
  rewrite !not_elem_of_cons. intros (? & ? & ? & ? & _).
  repeat split; congruence.
Qed.

Lemma toOCILayerType_other (m : string) :
  m ∉ canonical_media_types → map_index toOCILayerType m = "".
Proof.
  intros (? & ? & ? & ?)%not_canonical_cases.
  unfold map_index, toOCILayerType.
  by rewrite !lookup_insert_ne, lookup_empty.
Qed.

Lemma toDockerLayerType_other (m : string) :
  m ∉ canonical_media_types → map_index toDockerLayerType m = "".
Proof.
  intros (? & ? & ? & ?)%not_canonical_cases.
  unfold map_index, toDockerLayerType.
  by rewrite !lookup_insert_ne, lookup_empty.
Qed.

(** C4, as stated, fails: converting the OCI uncompressed media type to
    OCI and then to Docker ends at the Docker media type, not at the
    string it started from. *)
Lemma convert_roundtrip_counterexample :
  (ConvertLayerMediaType
     (ConvertLayerMediaType ocispec.MediaTypeImageLayer true).1 false).1
  = images.MediaTypeDockerSchema2Layer
  ∧ images.MediaTypeDockerSchema2Layer ≠ ocispec.MediaTypeImageLayer.
Proof. split; [vm_compute; reflexivity | discriminate]. Qed.

(** C4, amended: for each of the four canonical media types [m],
    converting to OCI and then to Docker gives the Docker form of [m],
    that is [ConvertLayerMediaType m false]; this is [m] itself exactly
    for the two Docker media types. *)
Theorem convert_roundtrip_docker (m : string) :
  m ∈ canonical_media_types →
  let back := (ConvertLayerMediaType (ConvertLayerMediaType m true).1 false).1 in
  back = (ConvertLayerMediaType m false).1
  ∧ (back = m ↔ m = images.MediaTypeDockerSchema2Layer
               ∨ m = images.MediaTypeDockerSchema2LayerGzip).
Proof.
  intros [-> | [-> | [-> | ->]]]%canonical_cases; vm_compute;
    (split; [reflexivity | split; [intros ? | intros [? | ?]]]);
    first [ discriminate | tauto ].
Qed.

Lemma convert_roundtrip_docker_witness :
  images.MediaTypeDockerSchema2LayerGzip ∈ canonical_media_types
  ∧ (ConvertLayerMediaType
       (ConvertLayerMediaType images.MediaTypeDockerSchema2LayerGzip true).1
       false).1
    = images.MediaTypeDockerSchema2LayerGzip.
Proof.
  assert (Hin : images.MediaTypeDockerSchema2LayerGzip ∈ canonical_media_types)
    by (unfold canonical_media_types; rewrite !elem_of_cons; tauto).
  split; [exact Hin |].
  apply (convert_roundtrip_docker _ Hin). by right.
Defined.

(** C7: on a string outside the four canonical media types, with either
    flag, [ConvertLayerMediaType] returns that string and writes exactly
    one warning; being a total function it has no failing outcome. *)
Theorem convert_unknown_passthrough (mediaType : string) (oci : bool) :
  mediaType ∉ canonical_media_types →
  ConvertLayerMediaType mediaType oci
  = (mediaType, [Warnf "unhandled conversion for mediatype %q" mediaType]).
Proof.
  intros Hout. unfold ConvertLayerMediaType.
  destruct oci;
    [rewrite (toOCILayerType_other _ Hout)
    | rewrite (toDockerLayerType_other _ Hout)];
    by rewrite bool_decide_eq_true_2.
Qed.

Lemma convert_unknown_passthrough_witness :
  ("application/vnd.oci.image.layer.v1.tar+zstd" ∉ canonical_media_types)
  ∧ ConvertLayerMediaType "application/vnd.oci.image.layer.v1.tar+zstd" true
    = ("application/vnd.oci.image.layer.v1.tar+zstd",
       [Warnf "unhandled conversion for mediatype %q"
          "application/vnd.oci.image.layer.v1.tar+zstd"]).
Proof.
  assert (Hout : "application/vnd.oci.image.layer.v1.tar+zstd"
                 ∉ canonical_media_types)
    by (unfold canonical_media_types; rewrite !not_elem_of_cons;
        repeat split; try discriminate; apply not_elem_of_nil).
  split; [exact Hout | exact (convert_unknown_passthrough _ true Hout)].
Defined.

(** ** Compression detection *)

Section detection.

Context `{Reader R}.

(** What [detectCompressionType] does with the outcome of its one
    [Read]. *)
Lemma detectCompressionType_read (cr : R) (data : list byte)
    (err : option error) :
  Read cr 10 = (data, err) →
  detectCompressionType cr =
    match err with
    | Some e =>
        if bool_decide (e ≠ EOF) then (UnknownCompression, Some e)
        else (match_signatures signatures (length data) (fill_buf data), None)
    | None =>
        (match_signatures signatures (length data) (fill_buf data), None)
    end.
Proof. intros Hread. unfold detectCompressionType. by rewrite Hread. Qed.

(** The loop over the signatures only ever answers [Uncompressed] or
    a type of the table, which is [Gzip]. *)
Lemma match_signatures_known (n : nat) (buf : list byte) :
  match_signatures signatures n buf = Uncompressed
  ∨ match_signatures signatures n buf = Gzip.
Proof.
  unfold signatures, match_signatures.
  repeat case_match; auto.
Qed.

(** A type other than [Uncompressed] and [Gzip] comes with the error
    of a failed read, and no error comes with one of these two. *)
Lemma detectCompressionType_cases (cr : R) :
  (∃ e, (Read cr 10).2 = Some e ∧ e ≠ EOF
        ∧ detectCompressionType cr = (UnknownCompression, Some e))
  ∨ (((Read cr 10).2 = None ∨ (Read cr 10).2 = Some EOF)
     ∧ (detectCompressionType cr = (Uncompressed, None)
        ∨ detectCompressionType cr = (Gzip, None))).
Proof.
  destruct (Read cr 10) as [data err] eqn:Hread.
  rewrite (detectCompressionType_read _ _ _ Hread). cbn [snd].
  destruct err as [e|].
  - case_bool_decide as He.
    + left. by exists e.
    + right. subst e. split; [by right |].
      destruct (match_signatures_known (length data) (fill_buf data))
        as [-> | ->]; auto.
  - right. split; [by left |].
    destruct (match_signatures_known (length data) (fill_buf data))
      as [-> | ->]; auto.
Qed.

(** C5: when the read delivers at least three bytes, the first three
    being [0x1F 0x8B 0x08], and does not fail (no error, or [io.EOF]),
    [detectCompressionType] answers [Gzip] with no error, whatever
    follows the signature and however long the stream is. *)
Theorem detect_gzip_signature (cr : R) (rest : list byte)
    (err : option error) :
  Read cr 10 = (x1f :: x8b :: x08 :: rest, err) →
  err = None ∨ err = Some EOF →
  detectCompressionType cr = (Gzip, None).
Proof.
  intros Hread Herr.
  rewrite (detectCompressionType_read _ _ _ Hread).
  destruct Herr as [-> | ->]; reflexivity.
Qed.

(** C6: a read that reports [io.EOF] never makes
    [detectCompressionType] fail, and when it delivered no byte at all
    (a zero-length blob) the answer is [Uncompressed]. *)
Theorem detect_empty_blob (cr : R) (data : list byte) :
  Read cr 10 = (data, Some EOF) →
  (detectCompressionType cr).2 = None
  ∧ (data = [] → detectCompressionType cr = (Uncompressed, None)).
Proof.
  intros Hread.
  rewrite (detectCompressionType_read _ _ _ Hread).
  rewrite bool_decide_eq_false_2 by (intros Hne; by apply Hne).
  split; [reflexivity | by intros ->].
Qed.

(** C8, amended: when the store opens the blob, a detected type of
    [Uncompressed] or [Gzip] gives the media type of the table
    {Uncompressed, Gzip} x {OCI, Docker}; any other detected type comes
    with the error of a failed read, and [DetectLayerMediaType] fails
    with that very error. *)
Theorem DetectLayerMediaType_outcomes (cs : Store R) (id : Digest)
    (oci : bool) (ra : R) :
  ReaderAt cs id = inl ra →
  let ct := (detectCompressionType ra).1 in
  (ct = Uncompressed →
     DetectLayerMediaType cs id oci =
       (if oci then ocispec.MediaTypeImageLayer
        else images.MediaTypeDockerSchema2Layer, None))
  ∧ (ct = Gzip →
       DetectLayerMediaType cs id oci =
         (if oci then ocispec.MediaTypeImageLayerGzip
          else images.MediaTypeDockerSchema2LayerGzip, None))
  ∧ (ct ≠ Uncompressed → ct ≠ Gzip →
       ∃ e, (Read ra 10).2 = Some e ∧ e ≠ EOF
            ∧ DetectLayerMediaType cs id oci = ("", Some e)).
Proof.
  intros Hopen ct. subst ct. unfold DetectLayerMediaType. rewrite Hopen.
  destruct (detectCompressionType_cases ra)
    as [(e & Hrd & Hne & ->) | (_ & [-> | ->])]; simpl.
  - repeat split; try discriminate.
    intros _ _. by exists e.
  - repeat split; try done. by destruct oci.
  - repeat split; try done. by destruct oci.
Qed.

(** C10: the [default] branch of the [switch] cannot be reached.
    [detectCompressionType] gives [UnknownCompression] only together
    with an error, a result without error carries [Uncompressed] or
    [Gzip], and every error of [DetectLayerMediaType] is the one
    [ReaderAt] returned or the one a failed read (not [io.EOF])
    returned. *)
Theorem detection_failure_unreachable (cs : Store R) (id : Digest)
    (oci : bool) :
  (∀ cr : R, (detectCompressionType cr).1 = UnknownCompression →
             ∃ e, (detectCompressionType cr).2 = Some e ∧ e ≠ EOF)
  ∧ (∀ (cr : R) ct, detectCompressionType cr = (ct, None) →
                    ct = Uncompressed ∨ ct = Gzip)
  ∧ (∀ mt e, DetectLayerMediaType cs id oci = (mt, Some e) →
       mt = ""
       ∧ (ReaderAt cs id = inr e
          ∨ ∃ ra, ReaderAt cs id = inl ra
                  ∧ (Read ra 10).2 = Some e ∧ e ≠ EOF)).
Proof.
  split; [| split].
  - intros cr.
    destruct (detectCompressionType_cases cr)
      as [(e & _ & Hne & ->) | (_ & [-> | ->])]; simpl;
      [by exists e | discriminate..].
  - intros cr ct.
    destruct (detectCompressionType_cases cr)
      as [(e & _ & _ & ->) | (_ & [-> | ->])];
      intros [= <-]; auto.
  - intros mt e. unfold DetectLayerMediaType.
    destruct (ReaderAt cs id) as [ra | err].
    + destruct (detectCompressionType_cases ra)
        as [(e' & Hrd & Hne & ->) | (_ & [-> | ->])].
      * intros [= <- <-]. split; [done |]. right. by exists ra.
      * by destruct oci.
      * by destruct oci.
    + intros [= <- <-]. split; [done | by left].
Qed.

End detection.

Lemma detect_gzip_signature_witness :
  Read (bytes_NewReader Sample.gzip_blob) 10
  = (x1f :: x8b :: x08 :: [x00; x00; x00; x00; x00; x00; x03], None)
  ∧ detectCompressionType (bytes_NewReader Sample.gzip_blob) = (Gzip, None).
Proof.
  split; [reflexivity |].
  apply (detect_gzip_signature (bytes_NewReader Sample.gzip_blob)
           [x00; x00; x00; x00; x00; x00; x03] None);
    [reflexivity | by left].
Defined.

Lemma detect_empty_blob_witness :
  Read (bytes_NewReader []) 10 = ([], Some EOF)
  ∧ detectCompressionType (bytes_NewReader []) = (Uncompressed, None).
Proof.
  split; [reflexivity |].
  apply (detect_empty_blob (bytes_NewReader []) [] eq_refl). reflexivity.
Defined.

(** C8, as stated, fails: the blob whose read breaks off is detected as
    [UnknownCompression], and [DetectLayerMediaType] fails with the
    read's own error, which is not the error naming the digest. *)
Lemma DetectLayerMediaType_counterexample :
  ReaderAt Sample.store "sha256:broken"
  = inl (Scripted [x1f; x8b] (Some (Failure "unexpected reset")))
  ∧ detectCompressionType
      (Scripted [x1f; x8b] (Some (Failure "unexpected reset")))
    = (UnknownCompression, Some (Failure "unexpected reset"))
  ∧ UnknownCompression ≠ Uncompressed
  ∧ UnknownCompression ≠ Gzip
  ∧ DetectLayerMediaType Sample.store "sha256:broken" true
    = ("", Some (Failure "unexpected reset"))
  ∧ Failure "unexpected reset"
    ≠ Errorf "failed to detect layer %v compression type" "sha256:broken".
Proof. repeat split; discriminate. Qed.

Lemma DetectLayerMediaType_outcomes_witness :
  ReaderAt Sample.store "sha256:gzip" = inl (Scripted Sample.gzip_blob None)
  ∧ DetectLayerMediaType Sample.store "sha256:gzip" false
    = (images.MediaTypeDockerSchema2LayerGzip, None).
Proof.
  split; [reflexivity |].
  destruct (DetectLayerMediaType_outcomes Sample.store "sha256:gzip" false
              (Scripted Sample.gzip_blob None) eq_refl) as (_ & Hgzip & _).
  apply Hgzip. reflexivity.
Defined.

(** ** The walk over the chain of references *)

Lemma hashes_agree_spec (info : cache.RefInfo) (dp : DiffPair) :
  hashes_agree info dp = true ↔ agrees info dp.
Proof.
  unfold hashes_agree, agrees.
  rewrite andb_true_iff, !bool_decide_eq_true. tauto.
Qed.

Lemma hashes_agree_false (info : cache.RefInfo) (dp : DiffPair) :
  hashes_agree info dp = false ↔ ¬ agrees info dp.
Proof.
  rewrite <- hashes_agree_spec. destruct (hashes_agree info dp); split;
    congruence.
Qed.

Lemma chain_Info (ref : cache.ImmutableRef) :
  ∃ rest, cache.chain (cache.record ref) = cache.Info ref :: rest.
Proof. unfold cache.Info. destruct (cache.record ref); simpl; eauto. Qed.

Lemma agreeing_nil_r (infos : list cache.RefInfo) : agreeing infos [] = 0.
Proof. by destruct infos. Qed.

Section slices.

Context {A : Type}.
Implicit Types (l : list A) (s : cache.refs).

Lemma slice_get_in l (n : nat) (x : A) s :
  l !! n = Some x → slice_get l (Z.of_nat n) s = Some (x, s).
Proof.
  intros Hx. unfold slice_get.
  destruct (Z.ltb_spec (Z.of_nat n) 0) as [? | _]; [lia |].
  by rewrite Nat2Z.id, Hx.
Qed.

Lemma slice_set_in l (n : nat) (x : A) s :
  n < length l → slice_set l (Z.of_nat n) x s = Some (<[n:=x]> l, s).
Proof.
  intros Hn. unfold slice_set.
  destruct (Z.ltb_spec (Z.of_nat n) 0) as [? | _]; [lia |].
  destruct (Z.leb_spec (Z.of_nat (length l)) (Z.of_nat n)) as [? | _];
    [lia |].
  by rewrite Nat2Z.id.
Qed.

End slices.

Lemma mirror_nat (diffPairs : list DiffPair) (i : nat) :
  i < length diffPairs →
  mirror diffPairs i = Z.of_nat (length diffPairs - 1 - i).
Proof. unfold mirror. lia. Qed.

(** One turn of the loop, by what it meets. *)
Section loop_turn.

Variables (diffPairs : list DiffPair) (i : nat) (idxs : list nat).
Variables (tref : cache.ImmutableRef) (layerTypes : list string).
Variables (dp : DiffPair) (s : cache.refs).
Hypothesis Hi : i < length diffPairs.
Hypothesis Hdp : diffPairs !! (length diffPairs - 1 - i) = Some dp.
Hypothesis Hlen : length layerTypes = length diffPairs.

Lemma loop_mismatch :
  hashes_agree (cache.Info tref) dp = false →
  GetMediaTypeForLayers_loop diffPairs (i :: idxs) tref layerTypes s
  = Some ((Some tref, layerTypes), s).
Proof.
  intros Hno. simpl. unfold mbind, cache.Go_bind.
  rewrite (mirror_nat _ _ Hi), (slice_get_in _ _ _ _ Hdp).
  by rewrite Hno.
Qed.

Lemma loop_root (info : cache.RefInfo) :
  hashes_agree (cache.Info tref) dp = true →
  cache.record tref = cache.Root info →
  GetMediaTypeForLayers_loop diffPairs (i :: idxs) tref layerTypes s
  = Some ((None,
           <[length diffPairs - 1 - i := cache.MediaType (cache.Info tref)]>
             layerTypes),
          {| cache.next := cache.next s;
             cache.trace :=
               cache.trace s ++ [cache.Released (cache.handle tref)] |}).
Proof.
  intros Hyes Hroot. simpl. unfold mbind, cache.Go_bind.
  rewrite (mirror_nat _ _ Hi), (slice_get_in _ _ _ _ Hdp), Hyes. simpl.
  rewrite slice_set_in by lia.
  unfold cache.Parent. by rewrite Hroot.
Qed.

Lemma loop_layer (info : cache.RefInfo) (p : cache.cacheRecord) :
  hashes_agree (cache.Info tref) dp = true →
  cache.record tref = cache.Layer info p →
  GetMediaTypeForLayers_loop diffPairs (i :: idxs) tref layerTypes s
  = GetMediaTypeForLayers_loop diffPairs idxs
      {| cache.handle := cache.next s; cache.record := p |}
      (<[length diffPairs - 1 - i := cache.MediaType (cache.Info tref)]>
         layerTypes)
      {| cache.next := S (cache.next s);
         cache.trace :=
           (cache.trace s ++ [cache.Acquired (cache.next s)])
           ++ [cache.Released (cache.handle tref)] |}.
Proof.
  intros Hyes Hlayer. simpl. unfold mbind, cache.Go_bind.
  rewrite (mirror_nat _ _ Hi), (slice_get_in _ _ _ _ Hdp), Hyes. simpl.
  rewrite slice_set_in by lia.
  unfold cache.Parent. by rewrite Hlayer.
Qed.

End loop_turn.

Lemma refs_eq (n n' : nat) (evs evs' : list cache.event) :
  n = n' → evs = evs' →
  {| cache.next := n; cache.trace := evs |}
  = {| cache.next := n'; cache.trace := evs' |}.
Proof. by intros -> ->. Qed.

Lemma refs_eta (s : cache.refs) :
  s = {| cache.next := cache.next s + 0; cache.trace := cache.trace s ++ [] |}.
Proof. destruct s; simpl. by rewrite Nat.add_0_r, app_nil_r. Qed.

(** The loop, started at index [i] with [n] turns to go: the entries it
    leaves, the handle it still holds, and what it did to handles. *)
Lemma loop_run (diffPairs : list DiffPair) (n : nat) :
  ∀ (i : nat) (tref : cache.ImmutableRef) (layerTypes : list string)
    (s : cache.refs),
    i + n = length diffPairs →
    length layerTypes = length diffPairs →
    let infos := cache.chain (cache.record tref) in
    let m := agreeing infos (drop i (reverse diffPairs)) in
    ∃ (last : option cache.ImmutableRef) (k : nat) (evs : list cache.event),
      GetMediaTypeForLayers_loop diffPairs (seq i n) tref layerTypes s
      = Some ((last,
               take (length diffPairs - i - m) layerTypes
               ++ reverse (cache.MediaType <$> take m infos)
               ++ drop (length diffPairs - i) layerTypes),
              {| cache.next := cache.next s + k;
                 cache.trace := cache.trace s ++ evs |})
      ∧ cache.acquired evs = seq (cache.next s) k
      ∧ cache.released evs ++ option_list (cache.handle <$> last)
        = cache.handle tref :: cache.acquired evs.
Proof.
  induction n as [|n IH]; intros i tref layerTypes s Hin Hlen infos m.
  - exists (Some tref), 0, []. simpl. split; [| done].
    assert (i = length diffPairs) as Hi by lia.
    subst m. rewrite drop_ge by (rewrite length_reverse; lia).
    rewrite agreeing_nil_r, Hi, Nat.sub_diag, Nat.sub_0_r. simpl.
    by rewrite <- refs_eta.
  - assert (i < length diffPairs) as Hi by lia.
    destruct (lookup_lt_is_Some_2 diffPairs (length diffPairs - 1 - i))
      as [dp Hdp]; [lia |].
    assert (drop i (reverse diffPairs) = dp :: drop (S i) (reverse diffPairs))
      as Hdrop.
    { apply drop_S. rewrite reverse_lookup by done.
      by replace (length diffPairs - S i) with (length diffPairs - 1 - i)
        by lia. }
    destruct (chain_Info tref) as [rest Hchain].
    subst m infos. rewrite Hdrop, Hchain. simpl seq. simpl agreeing.
    destruct (hashes_agree (cache.Info tref) dp) eqn:Hag.
    + destruct (cache.record tref) as [info | info p] eqn:Hrec.
      * exists None, 0, [cache.Released (cache.handle tref)].
        rewrite (loop_root _ _ _ _ _ _ _ Hi Hdp Hlen info Hag Hrec).
        simpl in Hchain. injection Hchain as _ <-. simpl agreeing.
        rewrite Nat.add_0_r. split; [| done]. do 2 f_equal.
        rewrite insert_take_drop by lia. simpl.
        replace (length diffPairs - i - 1) with (length diffPairs - 1 - i)
          by lia.
        by replace (S (length diffPairs - 1 - i)) with (length diffPairs - i)
          by lia.
      * simpl in Hchain. injection Hchain as _ <-.
        rewrite (loop_layer _ _ _ _ _ _ _ Hi Hdp Hlen info p Hag Hrec).
        edestruct (IH (S i)) as (last & k & evs & -> & Hacq & Hrel);
          [lia | by rewrite length_insert |].
        simpl in Hacq, Hrel |- *.
        exists last, (S k),
          (cache.Acquired (cache.next s)
           :: cache.Released (cache.handle tref) :: evs).
        split; [| split].
        -- f_equal. f_equal.
           ++ f_equal.
              set (m' := agreeing (cache.chain p) (drop (S i) (reverse diffPairs))).
              rewrite take_insert_ge by lia.
              rewrite (drop_insert_ge _ (length diffPairs - S i)) by lia.
              replace (length diffPairs - 1 - i - (length diffPairs - S i))
                with 0 by lia.
              destruct (lookup_lt_is_Some_2 layerTypes (length diffPairs - S i))
                as [old Hold]; [lia |].
              rewrite (drop_S _ _ _ Hold). simpl.
              rewrite reverse_cons, <- !(assoc_L (++)). simpl.
              replace (length diffPairs - i - S m')
                with (length diffPairs - S i - m') by lia.
              by replace (S (length diffPairs - S i))
                with (length diffPairs - i) by lia.
           ++ f_equal; [lia |].
              by rewrite <- !(assoc_L (++)).
        -- simpl. by rewrite Hacq.
        -- simpl. rewrite Hrel. by rewrite Hacq.
    + exists (Some tref), 0, [].
      rewrite (loop_mismatch _ _ _ _ _ _ _ Hi Hdp Hag).
      rewrite Nat.sub_0_r. simpl. rewrite take_drop. split; [| done].
      by rewrite <- refs_eta.
Qed.

Lemma acquired_app (evs evs' : list cache.event) :
  cache.acquired (evs ++ evs') = cache.acquired evs ++ cache.acquired evs'.
Proof. apply omap_app. Qed.

Lemma released_app (evs evs' : list cache.event) :
  cache.released (evs ++ evs') = cache.released evs ++ cache.released evs'.
Proof. apply omap_app. Qed.

(** The whole function on a reference that is not [nil]: the entries
    are the recorded media types of the [m] agreeing records, child
    last, behind [N - m] empty strings; the handles released are the
    handles acquired, in the same order, and they are numbered
    afresh. *)
Lemma GetMediaTypeForLayers_run (diffPairs : list DiffPair)
    (ref : cache.ImmutableRef) (s : cache.refs) :
  let infos := cache.chain (cache.record ref) in
  let m := agreeing infos (reverse diffPairs) in
  ∃ (k : nat) (evs : list cache.event),
    GetMediaTypeForLayers diffPairs (Some ref) s
    = Some (replicate (length diffPairs - m) ""
            ++ reverse (cache.MediaType <$> take m infos),
            {| cache.next := cache.next s + S k;
               cache.trace := cache.trace s ++ evs |})
    ∧ cache.acquired evs = seq (cache.next s) (S k)
    ∧ cache.released evs = cache.acquired evs.
Proof.
  intros infos m. unfold GetMediaTypeForLayers.
  unfold mbind, cache.Go_bind, cache.Clone, cache.acquire.
  set (tref := {| cache.handle := cache.next s;
                  cache.record := cache.record ref |}).
  set (s1 := {| cache.next := S (cache.next s);
                cache.trace := cache.trace s ++ [cache.Acquired (cache.next s)] |}).
  destruct (loop_run diffPairs (length diffPairs) 0 tref
              (replicate (length diffPairs) "") s1)
    as (last & k & evs & -> & Hacq & Hrel);
    [done | by rewrite length_replicate |].
  simpl in Hacq, Hrel. fold infos in Hrel |- *. rewrite drop_0. fold m.
  rewrite Nat.sub_0_r, take_replicate, drop_replicate, Nat.sub_diag.
  rewrite Nat.min_l by lia. simpl replicate. rewrite app_nil_r.
  destruct last as [t|]; simpl in Hrel |- *.
  - exists k, (cache.Acquired (cache.next s) :: evs
               ++ [cache.Released (cache.handle t)]).
    split; [| split].
    + unfold mret, cache.Go_ret. do 2 f_equal.
      apply refs_eq; [lia | by rewrite <- !(assoc_L (++))].
    + simpl. rewrite acquired_app, Hacq. simpl. by rewrite app_nil_r.
    + simpl. rewrite released_app, acquired_app. simpl.
      by rewrite Hrel, app_nil_r.
  - exists k, (cache.Acquired (cache.next s) :: evs).
    split; [| split].
    + unfold mret, cache.Go_ret. do 2 f_equal.
      apply refs_eq; [lia | by rewrite <- !(assoc_L (++))].
    + simpl. by rewrite Hacq.
    + simpl. by rewrite app_nil_r in Hrel.
Qed.

(** *** Counting the agreeing records *)

Lemma walk_step_Some (diffPairs : list DiffPair) (r : cache.cacheRecord)
    (i : nat) (info : cache.RefInfo) (dp : DiffPair) :
  walk_step diffPairs r i = Some (info, dp)
  ↔ cache.chain r !! i = Some info ∧ reverse diffPairs !! i = Some dp.
Proof.
  unfold walk_step. rewrite reverse_lookup_Some.
  replace (length diffPairs - S i) with (length diffPairs - 1 - i) by lia.
  case_decide as Hi.
  - destruct (cache.chain r !! i) as [info'|],
      (diffPairs !! (length diffPairs - 1 - i)) as [dp'|]; simpl;
      split; intros; destruct_and?; simplify_eq; auto.
  - split; intros; destruct_and?; simplify_eq; lia.
Qed.

Lemma agreeing_all (infos : list cache.RefInfo) :
  ∀ dps : list DiffPair,
    length infos = length dps →
    (∀ i info dp, infos !! i = Some info → dps !! i = Some dp →
                  agrees info dp) →
    agreeing infos dps = length dps.
Proof.
  induction infos as [|info infos IH]; intros [|dp dps] Hlen Hall;
    simpl in *; try done.
  rewrite (proj2 (hashes_agree_spec info dp)) by exact (Hall 0 _ _ eq_refl eq_refl).
  f_equal. apply IH; [lia |].
  intros i info' dp' Hi Hd. exact (Hall (S i) _ _ Hi Hd).
Qed.

Lemma agreeing_until (k : nat) :
  ∀ (infos : list cache.RefInfo) (dps : list DiffPair),
    (∃ info dp, infos !! k = Some info ∧ dps !! k = Some dp
                ∧ ¬ agrees info dp) →
    (∀ i info dp, i < k → infos !! i = Some info → dps !! i = Some dp →
                  agrees info dp) →
    agreeing infos dps = k.
Proof.
  induction k as [|k IH]; intros [|info infos] [|dp dps]
    (info' & dp' & Hi & Hd & Hno) Hall; simpl in *; try done.
  - injection Hi as <-. injection Hd as <-.
    by rewrite (proj2 (hashes_agree_false info dp)).
  - rewrite (proj2 (hashes_agree_spec info dp))
      by (apply (Hall 0); [lia | done..]).
    f_equal. apply IH; [by exists info', dp' |].
    intros i info'' dp'' Hlt Hi' Hd'. apply (Hall (S i)); [lia | done..].
Qed.

(** *** The claims about [GetMediaTypeForLayers] *)

(** C9: with a [nil] reference the result is [len(diffPairs)] empty
    strings (and no handle is touched). *)
Theorem nil_ref_all_empty (diffPairs : list DiffPair) (s : cache.refs) :
  GetMediaTypeForLayers diffPairs None s
  = Some (replicate (length diffPairs) "", s)
  ∧ length (replicate (length diffPairs) "") = length diffPairs
  ∧ ∀ mt, mt ∈ replicate (length diffPairs) "" → mt = "".
Proof.
  split; [reflexivity | split; [apply length_replicate |]].
  intros mt. apply elem_of_replicate_inv.
Qed.

(** C1, as stated, fails: a chain of one reference whose hashes are the
    pair's, but which has no media type on record, gives an empty
    entry. *)
Lemma full_match_counterexample :
  length (cache.chain (cache.Root Sample.base_unlabelled))
  = length [Sample.base_pair]
  ∧ walk_step [Sample.base_pair] (cache.Root Sample.base_unlabelled) 0
    = Some (Sample.base_unlabelled, Sample.base_pair)
  ∧ agrees Sample.base_unlabelled Sample.base_pair
  ∧ GetMediaTypeForLayers [Sample.base_pair]
      (held (cache.Root Sample.base_unlabelled)) (refs_at 1)
    = Some ([""], {| cache.next := 2;
                     cache.trace := [cache.Acquired 1; cache.Released 1] |})
  ∧ "" ∈ [""].
Proof. repeat split. apply list_elem_of_here. Qed.

(** C1, amended: for [N] pairs and a chain of exactly [N] references
    whose hashes agree with the pairs at every step of the walk,
    [GetMediaTypeForLayers] returns [N] strings, position [j] holding
    the media type recorded in the reference compared with
    [diffPairs[j]]; no entry is empty when no recorded media type is. *)
Theorem full_match_media_types (diffPairs : list DiffPair)
    (ref : cache.ImmutableRef) (s : cache.refs) :
  length (cache.chain (cache.record ref)) = length diffPairs →
  (∀ i info dp, walk_step diffPairs (cache.record ref) i = Some (info, dp) →
                agrees info dp) →
  ∃ (layerTypes : list string) (s' : cache.refs),
    GetMediaTypeForLayers diffPairs (Some ref) s = Some (layerTypes, s')
    ∧ length layerTypes = length diffPairs
    ∧ (∀ j, j < length diffPairs →
         ∃ info dp, diffPairs !! j = Some dp
                    ∧ walk_step diffPairs (cache.record ref)
                        (length diffPairs - 1 - j)
                      = Some (info, dp)
                    ∧ layerTypes !! j = Some (cache.MediaType info))
    ∧ ((∀ info, info ∈ cache.chain (cache.record ref) →
                cache.MediaType info ≠ "") →
       "" ∉ layerTypes).
Proof.
  intros Hlen Hall.
  destruct (GetMediaTypeForLayers_run diffPairs ref s)
    as (k & evs & Hrun & _).
  rewrite agreeing_all in Hrun; cycle 1.
  { by rewrite length_reverse. }
  { intros i info dp Hi Hd. apply (Hall i). by apply walk_step_Some. }
  rewrite length_reverse, Nat.sub_diag in Hrun. simpl in Hrun.
  rewrite take_ge in Hrun by lia.
  eexists _, _. split; [exact Hrun |].
  split; [by rewrite length_reverse, length_fmap |].
  split.
  - intros j Hj.
    destruct (lookup_lt_is_Some_2 (cache.chain (cache.record ref))
                (length diffPairs - 1 - j)) as [info Hinfo]; [lia |].
    destruct (lookup_lt_is_Some_2 diffPairs j) as [dp Hdp]; [lia |].
    exists info, dp. split; [done | split].
    + apply walk_step_Some. split; [done |].
      apply reverse_lookup_Some. split; [| lia].
      by replace (length diffPairs - S (length diffPairs - 1 - j)) with j
        by lia.
    + rewrite reverse_lookup by (rewrite length_fmap; lia).
      rewrite length_fmap, list_lookup_fmap, Hlen.
      replace (length diffPairs - S j) with (length diffPairs - 1 - j) by lia.
      by rewrite Hinfo.
  - intros Hreal Hempty.
    apply elem_of_reverse, list_elem_of_fmap in Hempty
      as (info & Heq & Hin).
    by apply (Hreal info Hin).
Qed.

Lemma full_match_media_types_witness :
  ∃ (layerTypes : list string) (s' : cache.refs),
    GetMediaTypeForLayers [Sample.base_pair; Sample.top_pair]
      (held (cache.Layer Sample.top (cache.Root Sample.base))) (refs_at 1)
    = Some (layerTypes, s')
    ∧ length layerTypes = 2.
Proof.
  destruct (full_match_media_types [Sample.base_pair; Sample.top_pair]
              {| cache.handle := 0;
                 cache.record := cache.Layer Sample.top (cache.Root Sample.base) |}
              (refs_at 1))
    as (layerTypes & s' & Hrun & Hlen & _).
  - reflexivity.
  - intros [|[|i]] info dp; vm_compute; intros [= <- <-]; split; reflexivity.
  - by exists layerTypes, s'.
Defined.

(** C2, as stated, fails on the count.  With two pairs and the first
    mismatch at the child (chain position [0]) nothing was matched
    before the break, although [N-1-k] is [1]; with the first mismatch at
    chain position [1] one entry is filled, although [N-1-k] is [0]. *)
Lemma first_mismatch_counterexample :
  (first_mismatch [Sample.base_pair; Sample.top_pair]
     (cache.Layer Sample.top_reblobbed (cache.Root Sample.base)) 0
   ∧ GetMediaTypeForLayers [Sample.base_pair; Sample.top_pair]
       (held (cache.Layer Sample.top_reblobbed (cache.Root Sample.base)))
       (refs_at 1)
     = Some ([""; ""],
             {| cache.next := 2;
                cache.trace := [cache.Acquired 1; cache.Released 1] |})
   ∧ filled_entries [""; ""] = 0
   ∧ length [Sample.base_pair; Sample.top_pair] - 1 - 0 = 1)
  ∧ (first_mismatch [Sample.base_pair; Sample.top_pair]
       (cache.Layer Sample.top (cache.Root Sample.base_reblobbed)) 1
     ∧ GetMediaTypeForLayers [Sample.base_pair; Sample.top_pair]
         (held (cache.Layer Sample.top (cache.Root Sample.base_reblobbed)))
         (refs_at 1)
       = Some ([""; ocispec.MediaTypeImageLayer],
               {| cache.next := 3;
                  cache.trace := [cache.Acquired 1; cache.Acquired 2;
                                  cache.Released 1; cache.Released 2] |})
     ∧ filled_entries [""; ocispec.MediaTypeImageLayer] = 1
     ∧ length [Sample.base_pair; Sample.top_pair] - 1 - 1 = 0).
Proof.
  split; (split; [| repeat split]).
  - split.
    + exists Sample.top_reblobbed, Sample.top_pair.
      split; [reflexivity | intros [_ ?]; discriminate].
    + intros i info dp Hi. lia.
  - split.
    + exists Sample.base_reblobbed, Sample.base_pair.
      split; [reflexivity | intros [_ ?]; discriminate].
    + intros [|i] info dp Hi; [| lia].
      vm_compute. intros [= <- <-]. split; reflexivity.
Qed.

(** C2, amended: when the first mismatch of the walk is at chain
    position [k], counted from the child, [GetMediaTypeForLayers]
    returns [N] strings; the [k] positions child-ward of the mismatch,
    that is [N-1-i] for [i < k], hold the media type recorded in the
    reference at chain position [i], and position [N-1-k] together with
    every position ancestral to it holds the empty string. *)
Theorem first_mismatch_media_types (diffPairs : list DiffPair)
    (ref : cache.ImmutableRef) (s : cache.refs) (k : nat) :
  first_mismatch diffPairs (cache.record ref) k →
  ∃ (layerTypes : list string) (s' : cache.refs),
    GetMediaTypeForLayers diffPairs (Some ref) s = Some (layerTypes, s')
    ∧ length layerTypes = length diffPairs
    ∧ (∀ i, i < k →
         ∃ info, cache.chain (cache.record ref) !! i = Some info
                 ∧ layerTypes !! (length diffPairs - 1 - i)
                   = Some (cache.MediaType info))
    ∧ (∀ j, j ≤ length diffPairs - 1 - k → layerTypes !! j = Some "").
Proof.
  intros [(info & dp & Hk & Hno) Hbefore].
  apply walk_step_Some in Hk as [Hik Hdk].
  pose proof (lookup_lt_Some _ _ _ Hik) as Hklen.
  pose proof (lookup_lt_Some _ _ _ Hdk) as HkN.
  rewrite length_reverse in HkN.
  destruct (GetMediaTypeForLayers_run diffPairs ref s)
    as (n & evs & Hrun & _).
  rewrite (agreeing_until k) in Hrun; cycle 1.
  { by exists info, dp. }
  { intros i info' dp' Hlt Hi Hd. apply (Hbefore i); [done |].
    by apply walk_step_Some. }
  assert (length (reverse (cache.MediaType
                             <$> take k (cache.chain (cache.record ref)))) = k)
    as Hfilled by (rewrite length_reverse, length_fmap, length_take; lia).
  eexists _, _. split; [exact Hrun |].
  split; [rewrite length_app, length_replicate, Hfilled; lia |].
  split.
  - intros i Hi.
    destruct (lookup_lt_is_Some_2 (cache.chain (cache.record ref)) i)
      as [info' Hinfo']; [lia |].
    exists info'. split; [done |].
    rewrite lookup_app_r by (rewrite length_replicate; lia).
    rewrite length_replicate.
    rewrite reverse_lookup by (rewrite length_fmap, length_take; lia).
    rewrite length_fmap, length_take, Nat.min_l by lia.
    replace (k - S (length diffPairs - 1 - i - (length diffPairs - k)))
      with i by lia.
    by rewrite list_lookup_fmap, lookup_take_lt, Hinfo' by lia.
  - intros j Hj.
    rewrite lookup_app_l by (rewrite length_replicate; lia).
    apply lookup_replicate_2. lia.
Qed.

Lemma first_mismatch_media_types_witness :
  ∃ (layerTypes : list string) (s' : cache.refs),
    GetMediaTypeForLayers [Sample.base_pair; Sample.top_pair]
      (held (cache.Layer Sample.top (cache.Root Sample.base_reblobbed)))
      (refs_at 1)
    = Some (layerTypes, s')
    ∧ layerTypes !! 0 = Some "".
Proof.
  destruct (first_mismatch_media_types [Sample.base_pair; Sample.top_pair]
              {| cache.handle := 0;
                 cache.record :=
                   cache.Layer Sample.top (cache.Root Sample.base_reblobbed) |}
              (refs_at 1) 1)
    as (layerTypes & s' & Hrun & _ & _ & Hempty).
  - split.
    + exists Sample.base_reblobbed, Sample.base_pair.
      split; [reflexivity | intros [_ ?]; discriminate].
    + intros [|i] info dp Hi; [| lia].
      vm_compute. intros [= <- <-]. split; reflexivity.
  - exists layerTypes, s'. split; [exact Hrun |]. apply Hempty. simpl. lia.
Defined.

(** C3: on a reference that is not [nil], whichever way the walk ends,
    [GetMediaTypeForLayers] returns, and every handle it acquired
    through [Clone] or [Parent] ([k] of them, numbered afresh, at least
    the clone) has been released exactly once by then; nothing else is
    released, so the caller's own handle is left alone. *)
Theorem handles_released_once (diffPairs : list DiffPair)
    (ref : cache.ImmutableRef) (s : cache.refs) :
  ∃ (layerTypes : list string) (k : nat) (evs : list cache.event),
    GetMediaTypeForLayers diffPairs (Some ref) s
    = Some (layerTypes, {| cache.next := cache.next s + k;
                           cache.trace := cache.trace s ++ evs |})
    ∧ 0 < k
    ∧ cache.acquired evs = seq (cache.next s) k
    ∧ (∀ h, h ∈ cache.acquired evs →
            count_occ Nat.eq_dec (cache.released evs) h = 1)
    ∧ (∀ h, h ∈ cache.released evs → h ∈ cache.acquired evs)
    ∧ (cache.handle ref < cache.next s →
       cache.handle ref ∉ cache.released evs).
Proof.
  destruct (GetMediaTypeForLayers_run diffPairs ref s)
    as (k & evs & Hrun & Hacq & Hrel).
  eexists _, (S k), evs. split; [exact Hrun |].
  split; [lia |]. split; [exact Hacq |].
  rewrite Hrel, Hacq. split; [| split].
  - intros h Hh. apply NoDup_count_occ'; [apply List.seq_NoDup |].
    by apply list_elem_of_In.
  - done.
  - intros Hold Hin. apply elem_of_seq in Hin. lia.
Qed.

(** ** Further properties of detection *)

Lemma bytes_Equal_spec (a : list byte) :
  ∀ b : list byte, bytes_Equal a b = true ↔ a = b.
Proof.
  induction a as [|x a IH]; intros [|y b]; simpl; try (split; done).
  rewrite andb_true_iff, IH. split.
  - intros [Hxy ->]. by rewrite (byte_dec_bl x y Hxy).
  - intros [= -> ->]. split; [by apply byte_dec_lb | done].
Qed.

(** What the loop over the signatures answers, read off the bytes
    delivered. *)
Lemma match_signatures_delivered (data : list byte) :
  (take 3 data = [x1f; x8b; x08] →
   match_signatures signatures (length data) (fill_buf data) = Gzip)
  ∧ (take 3 data ≠ [x1f; x8b; x08] →
     match_signatures signatures (length data) (fill_buf data) = Uncompressed).
Proof.
  destruct data as [|a [|b [|c rest]]]; try (split; [discriminate | done]).
  unfold signatures, match_signatures.
  change (length (a :: b :: c :: rest) <? length [x1f; x8b; x08]) with false.
  change (take (length [x1f; x8b; x08]) (fill_buf (a :: b :: c :: rest)))
    with [a; b; c].
  change (take 3 (a :: b :: c :: rest)) with [a; b; c].
  destruct (bytes_Equal [x1f; x8b; x08] [a; b; c]) eqn:Heq.
  - apply bytes_Equal_spec in Heq. split; [done | congruence].
  - split; [| done]. intros Hsig.
    rewrite <- Hsig, (proj2 (bytes_Equal_spec _ _) eq_refl) in Heq. done.
Qed.

Section detection_more.

Context `{Reader R}.

(** X1: when the read does not fail (no error, or [io.EOF]),
    [detectCompressionType] answers [Gzip] if the first three bytes
    delivered are [0x1F 0x8B 0x08], and [Uncompressed] in every other
    case, a read of fewer than three bytes included; it reports no
    error. *)
Theorem detect_signature_decides (cr : R) (data : list byte)
    (err : option error) :
  Read cr 10 = (data, err) →
  err = None ∨ err = Some EOF →
  (take 3 data = [x1f; x8b; x08] →
   detectCompressionType cr = (Gzip, None))
  ∧ (take 3 data ≠ [x1f; x8b; x08] →
     detectCompressionType cr = (Uncompressed, None)).
Proof.
  intros Hread Herr.
  rewrite (detectCompressionType_read _ _ _ Hread).
  destruct (match_signatures_delivered data) as [Hyes Hno].
  destruct Herr as [-> | ->].
  - split; intros Hsig; [by rewrite Hyes | by rewrite Hno].
  - rewrite bool_decide_eq_false_2 by (intros Hne; by apply Hne).
    split; intros Hsig; [by rewrite Hyes | by rewrite Hno].
Qed.

(** X2: [DetectLayerMediaType] succeeds exactly when the store opens
    the blob and the read does not fail (no error, or [io.EOF]); in
    particular an empty or short blob is no failure. *)
Theorem DetectLayerMediaType_succeeds_iff (cs : Store R) (id : Digest)
    (oci : bool) :
  (DetectLayerMediaType cs id oci).2 = None
  ↔ ∃ ra, ReaderAt cs id = inl ra
          ∧ ((Read ra 10).2 = None ∨ (Read ra 10).2 = Some EOF).
Proof.
  unfold DetectLayerMediaType.
  destruct (ReaderAt cs id) as [ra | err]; simpl.
  - destruct (detectCompressionType_cases ra)
      as [(e & Hrd & Hne & ->) | (Hrd & [-> | ->])].
    + split; [done |]. intros (ra' & [= <-] & [Hnone | Heof]); congruence.
    + split; [intros _; by exists ra | by destruct oci].
    + split; [intros _; by exists ra | by destruct oci].
  - split; [done | by intros (ra & ? & _)].
Qed.

(** X3: a media type [DetectLayerMediaType] returns without error is
    one of the four canonical ones, and converting it with
    [ConvertLayerMediaType] to either convention gives, without a
    warning, what [DetectLayerMediaType] returns for that convention;
    converting to the convention it was detected for leaves it as it
    is. *)
Theorem detect_then_convert (cs : Store R) (id : Digest) (oci oci' : bool)
    (mt : string) :
  DetectLayerMediaType cs id oci = (mt, None) →
  mt ∈ canonical_media_types
  ∧ ConvertLayerMediaType mt oci = (mt, [])
  ∧ ConvertLayerMediaType mt oci' = ((DetectLayerMediaType cs id oci').1, [])
  ∧ (DetectLayerMediaType cs id oci').2 = None.
Proof.
  unfold DetectLayerMediaType.
  destruct (ReaderAt cs id) as [ra | err]; [| done].
  destruct (detectCompressionType_cases ra)
    as [(e & _ & _ & ->) | (_ & [-> | ->])]; [done | |];
    destruct oci, oci'; intros [= <-];
    (split; [unfold canonical_media_types; rewrite !elem_of_cons; tauto |]);
    repeat split.
Qed.

(** X4: the name [String()] gives the detected type is ["unknown"]
    exactly when [detectCompressionType] reports an error. *)
Theorem detected_type_name (cr : R) :
  CompressionType_String (detectCompressionType cr).1 = "unknown"
  ↔ (detectCompressionType cr).2 ≠ None.
Proof.
  destruct (detectCompressionType_cases cr)
    as [(e & _ & _ & ->) | (_ & [-> | ->])]; simpl; split; done.
Qed.

End detection_more.

Lemma detect_signature_decides_witness :
  Read (Scripted [x1f; x8b] (Some EOF)) 10 = ([x1f; x8b], Some EOF)
  ∧ detectCompressionType (Scripted [x1f; x8b] (Some EOF))
    = (Uncompressed, None).
Proof.
  split; [reflexivity |].
  destruct (detect_signature_decides (Scripted [x1f; x8b] (Some EOF))
              [x1f; x8b] (Some EOF) eq_refl (or_intror eq_refl))
    as [_ Hno].
  apply Hno. discriminate.
Defined.

Lemma detect_then_convert_witness :
  DetectLayerMediaType Sample.store "sha256:empty" true
  = (ocispec.MediaTypeImageLayer, None)
  ∧ ConvertLayerMediaType ocispec.MediaTypeImageLayer false
    = ((DetectLayerMediaType Sample.store "sha256:empty" false).1, []).
Proof.
  assert (DetectLayerMediaType Sample.store "sha256:empty" true
          = (ocispec.MediaTypeImageLayer, None)) as Hdetect by reflexivity.
  split; [exact Hdetect |].
  destruct (detect_then_convert Sample.store "sha256:empty" true false
              ocispec.MediaTypeImageLayer Hdetect) as (_ & _ & Hconv & _).
  exact Hconv.
Defined.

(** ** Further properties of conversion *)

Lemma ConvertLayerMediaType_outside (m : string) (oci : bool) :
  m ∉ canonical_media_types →
  ConvertLayerMediaType m oci
  = (m, [Warnf "unhandled conversion for mediatype %q" m]).
Proof.
  intros Hout. unfold ConvertLayerMediaType.
  destruct oci;
    [rewrite (toOCILayerType_other _ Hout)
    | rewrite (toDockerLayerType_other _ Hout)];
    by rewrite bool_decide_eq_true_2.
Qed.

(** Evaluate the converted string on the left of a membership goal. *)
Ltac eval_converted :=
  match goal with
  | |- ?x ∈ _ => let y := eval vm_compute in x in change x with y
  | |- ?x ∉ _ => let y := eval vm_compute in x in change x with y
  end.

(** On a canonical media type the conversion stays among the
    canonical ones and logs nothing. *)
Lemma ConvertLayerMediaType_inside (m : string) (oci : bool) :
  m ∈ canonical_media_types →
  (ConvertLayerMediaType m oci).1 ∈ canonical_media_types
  ∧ (ConvertLayerMediaType m oci).2 = [].
Proof.
  intros [-> | [-> | [-> | ->]]]%canonical_cases; destruct oci;
    (split; [eval_converted | reflexivity]);
    unfold canonical_media_types; rewrite !elem_of_cons; tauto.
Qed.

(** X5: a later conversion overrides an earlier one: for every string
    [m] and flags [a], [b], converting [m] under [a] and the outcome
    under [b] gives what converting [m] under [b] gives.  With [a = b]
    this says that converting twice is converting once. *)
Theorem convert_absorbs (m : string) (a b : bool) :
  (ConvertLayerMediaType (ConvertLayerMediaType m a).1 b).1
  = (ConvertLayerMediaType m b).1.
Proof.
  destruct (decide (m ∈ canonical_media_types)) as [Hin | Hout].
  - apply canonical_cases in Hin as [-> | [-> | [-> | ->]]];
      destruct a, b; reflexivity.
  - by rewrite (ConvertLayerMediaType_outside m a Hout).
Qed.

(** X6: [ConvertLayerMediaType] logs a warning exactly when its input
    is not one of the four canonical media types. *)
Theorem convert_warns_iff (m : string) (oci : bool) :
  (ConvertLayerMediaType m oci).2 = [] ↔ m ∈ canonical_media_types.
Proof.
  split.
  - intros Hquiet.
    destruct (decide (m ∈ canonical_media_types)) as [Hin | Hout]; [done |].
    by rewrite (ConvertLayerMediaType_outside m oci Hout) in Hquiet.
  - intros Hin. by apply ConvertLayerMediaType_inside.
Qed.


(** X8: [String()] tells [Uncompressed] and [Gzip] apart from each
    other and from every other value, and names all other values
    alike. *)
Theorem CompressionType_String_eq (a b : CompressionType) :
  CompressionType_String a = CompressionType_String b
  ↔ a = b ∨ (a ≠ Uncompressed ∧ a ≠ Gzip ∧ b ≠ Uncompressed ∧ b ≠ Gzip).
Proof.
  unfold CompressionType_String, Uncompressed, Gzip.
  destruct (Z.eqb_spec a 0), (Z.eqb_spec a 1), (Z.eqb_spec b 0),
    (Z.eqb_spec b 1); split; try discriminate; intros; try lia;
    try (right; repeat split; lia); try (left; lia);
    destruct_or?; destruct_and?; try lia; try done.
Qed.

(** ** Further properties of the walk *)

Lemma chain_length_pos (r : cache.cacheRecord) : 0 < length (cache.chain r).
Proof. destruct r; simpl; lia. Qed.

(** What [agreeing] counts: the records before it agree, the one at it,
    if both lists reach that far, does not. *)
Lemma agreeing_spec (infos : list cache.RefInfo) :
  ∀ dps : list DiffPair,
    agreeing infos dps ≤ length infos
    ∧ agreeing infos dps ≤ length dps
    ∧ (∀ i info dp, i < agreeing infos dps → infos !! i = Some info →
                    dps !! i = Some dp → agrees info dp)
    ∧ (∀ info dp, infos !! agreeing infos dps = Some info →
                  dps !! agreeing infos dps = Some dp → ¬ agrees info dp).
Proof.
  induction infos as [|info infos IH]; intros [|dp dps]; simpl;
    try (split; [lia | split; [lia | split; [intros; lia | done]]]).
  destruct (hashes_agree info dp) eqn:Hag.
  - destruct (IH dps) as (Hl & Hd & Hbefore & Hat).
    split; [lia | split; [lia | split; [| exact Hat]]].
    intros [|i] info' dp' Hi; simpl.
    + intros [= <-] [= <-]. by apply hashes_agree_spec.
    + apply Hbefore. lia.
  - split; [lia | split; [lia | split; [intros; lia |]]].
    intros info' dp' [= <-] [= <-]. by apply hashes_agree_false.
Qed.

Lemma agreeing_all_min (infos : list cache.RefInfo) :
  ∀ dps : list DiffPair,
    (∀ i info dp, infos !! i = Some info → dps !! i = Some dp →
                  agrees info dp) →
    agreeing infos dps = min (length infos) (length dps).
Proof.
  induction infos as [|info infos IH]; intros [|dp dps] Hall; simpl;
    try done.
  rewrite (proj2 (hashes_agree_spec info dp))
    by exact (Hall 0 _ _ eq_refl eq_refl).
  f_equal. apply IH.
  intros i info' dp' Hi Hd. exact (Hall (S i) _ _ Hi Hd).
Qed.

(** X9: whatever the pairs, the reference ([nil] or not) and the
    state of the cache, [GetMediaTypeForLayers] returns without a
    panic, and what it returns has one string for each pair. *)
Theorem GetMediaTypeForLayers_length (diffPairs : list DiffPair)
    (ref : option cache.ImmutableRef) (s : cache.refs) :
  ∃ (layerTypes : list string) (s' : cache.refs),
    GetMediaTypeForLayers diffPairs ref s = Some (layerTypes, s')
    ∧ length layerTypes = length diffPairs.
Proof.
  destruct ref as [ref|].
  - destruct (GetMediaTypeForLayers_run diffPairs ref s)
      as (k & evs & Hrun & _).
    eexists _, _. split; [exact Hrun |].
    destruct (agreeing_spec (cache.chain (cache.record ref))
                (reverse diffPairs)) as (Hl & Hd & _).
    rewrite length_reverse in Hd.
    rewrite length_app, length_replicate, length_reverse, length_fmap,
      length_take.
    lia.
  - exists (replicate (length diffPairs) ""), s.
    split; [reflexivity | apply length_replicate].
Qed.

(** X10: on a reference that is not [nil] the result is decided by a
    number [m] of trusted layers: the walk's first [m] steps agree,
    step [m], if the pairs and the chain both reach that far, does
    not; the result is [N - m] empty strings followed by the media
    types recorded in the first [m] references of the chain, child
    last. *)
Theorem GetMediaTypeForLayers_trusted (diffPairs : list DiffPair)
    (ref : cache.ImmutableRef) (s : cache.refs) :
  ∃ (m : nat) (s' : cache.refs),
    GetMediaTypeForLayers diffPairs (Some ref) s
    = Some (replicate (length diffPairs - m) ""
            ++ reverse (cache.MediaType
                          <$> take m (cache.chain (cache.record ref))),
            s')
    ∧ m ≤ length diffPairs
    ∧ m ≤ length (cache.chain (cache.record ref))
    ∧ (∀ i info dp, i < m →
         walk_step diffPairs (cache.record ref) i = Some (info, dp) →
         agrees info dp)
    ∧ (∀ info dp,
         walk_step diffPairs (cache.record ref) m = Some (info, dp) →
         ¬ agrees info dp).
Proof.
  destruct (GetMediaTypeForLayers_run diffPairs ref s)
    as (k & evs & Hrun & _).
  destruct (agreeing_spec (cache.chain (cache.record ref))
              (reverse diffPairs)) as (Hl & Hd & Hbefore & Hat).
  rewrite length_reverse in Hd.
  eexists _, _. split; [exact Hrun |].
  split; [done | split; [done | split]].
  - intros i info dp Hi [Hinfo Hdp]%walk_step_Some. by apply (Hbefore i).
  - intros info dp [Hinfo Hdp]%walk_step_Some. by apply Hat.
Qed.

(** X11: when every step of the walk agrees, whatever the lengths: a
    chain of [L] references gives the media types recorded in its
    first [N] references, child last, behind [N - L] empty strings.
    A chain that ends early leaves the ancestral positions empty; a
    chain longer than the pairs is read only as far as the pairs
    go. *)
Theorem all_agree_media_types (diffPairs : list DiffPair)
    (ref : cache.ImmutableRef) (s : cache.refs) :
  (∀ i info dp, walk_step diffPairs (cache.record ref) i = Some (info, dp) →
                agrees info dp) →
  ∃ s' : cache.refs,
    GetMediaTypeForLayers diffPairs (Some ref) s
    = Some (replicate
              (length diffPairs - length (cache.chain (cache.record ref))) ""
            ++ reverse (cache.MediaType
                          <$> take (length diffPairs)
                                (cache.chain (cache.record ref))),
            s').
Proof.
  intros Hall.
  destruct (GetMediaTypeForLayers_run diffPairs ref s)
    as (k & evs & Hrun & _).
  rewrite agreeing_all_min, length_reverse in Hrun; cycle 1.
  { intros i info dp Hi Hd. apply (Hall i). by apply walk_step_Some. }
  eexists. rewrite Hrun. do 2 f_equal.
  set (L := length (cache.chain (cache.record ref))).
  set (N := length diffPairs).
  destruct (decide (L ≤ N)) as [Hle | Hgt].
  - rewrite Nat.min_l by done.
    by rewrite !take_ge by (fold L; lia).
  - rewrite Nat.min_r by lia.
    by replace (N - L) with (N - N) by lia.
Qed.

Lemma all_agree_media_types_witness :
  ∃ s' : cache.refs,
    GetMediaTypeForLayers [Sample.base_pair; Sample.top_pair]
      (held (cache.Root Sample.top)) (refs_at 1)
    = Some ([""; ocispec.MediaTypeImageLayer], s').
Proof.
  destruct (all_agree_media_types [Sample.base_pair; Sample.top_pair]
              {| cache.handle := 0; cache.record := cache.Root Sample.top |}
              (refs_at 1)) as [s' Hrun].
  - intros [|[|i]] info dp; vm_compute; intros [= <- <-]; split; reflexivity.
  - by exists s'.
Defined.



(** *** The order in which handles are taken and given up *)

(** The loop entered holding the newest handle: its events, closed by
    the release of the handle it leaves, are a [hand_over]. *)
Lemma loop_trace (diffPairs : list DiffPair) (n : nat) :
  ∀ (i : nat) (tref : cache.ImmutableRef) (layerTypes : list string)
    (s : cache.refs),
    i + n = length diffPairs →
    length layerTypes = length diffPairs →
    cache.next s = S (cache.handle tref) →
    let infos := cache.chain (cache.record tref) in
    let p := min (agreeing infos (drop i (reverse diffPairs)))
                 (length infos - 1) in
    ∃ (last : option cache.ImmutableRef) (layerTypes' : list string)
      (evs : list cache.event),
      GetMediaTypeForLayers_loop diffPairs (seq i n) tref layerTypes s
      = Some ((last, layerTypes'),
              {| cache.next := cache.next s + p;
                 cache.trace := cache.trace s ++ evs |})
      ∧ evs ++ match last with
               | Some t => [cache.Released (cache.handle t)]
               | None => []
               end
        = hand_over (cache.handle tref) p.
Proof.
  induction n as [|n IH]; intros i tref layerTypes s Hin Hlen Hnext infos p.
  - exists (Some tref), layerTypes, []. subst p.
    rewrite drop_ge by (rewrite length_reverse; lia).
    rewrite agreeing_nil_r. simpl. by rewrite <- refs_eta.
  - assert (i < length diffPairs) as Hi by lia.
    destruct (lookup_lt_is_Some_2 diffPairs (length diffPairs - 1 - i))
      as [dp Hdp]; [lia |].
    assert (drop i (reverse diffPairs) = dp :: drop (S i) (reverse diffPairs))
      as Hdrop.
    { apply drop_S. rewrite reverse_lookup by done.
      by replace (length diffPairs - S i) with (length diffPairs - 1 - i)
        by lia. }
    destruct (chain_Info tref) as [rest Hchain].
    subst p infos. rewrite Hdrop, Hchain. simpl seq. simpl agreeing.
    destruct (hashes_agree (cache.Info tref) dp) eqn:Hag.
    + destruct (cache.record tref) as [info | info parent] eqn:Hrec.
      * simpl in Hchain. injection Hchain as _ <-.
        rewrite (loop_root _ _ _ _ _ _ _ Hi Hdp Hlen info Hag Hrec).
        eexists None, _, [cache.Released (cache.handle tref)].
        simpl. by rewrite Nat.add_0_r.
      * simpl in Hchain. injection Hchain as _ <-.
        rewrite (loop_layer _ _ _ _ _ _ _ Hi Hdp Hlen info parent Hag Hrec).
        pose proof (chain_length_pos parent) as Hpos.
        set (m' := agreeing (cache.chain parent)
                     (drop (S i) (reverse diffPairs))).
        change (length (cache.Info tref :: cache.chain parent))
          with (S (length (cache.chain parent))).
        replace (min (S m') (S (length (cache.chain parent)) - 1))
          with (S (min m' (length (cache.chain parent) - 1))) by lia.
        edestruct (IH (S i)
                     {| cache.handle := cache.next s; cache.record := parent |})
          as (last & layerTypes' & evs & -> & Hevs);
          [lia | by rewrite length_insert | done |].
        cbn [cache.handle cache.record cache.next cache.trace] in Hevs |- *.
        fold m' in Hevs |- *.
        exists last, layerTypes',
          (cache.Acquired (cache.next s)
           :: cache.Released (cache.handle tref) :: evs).
        split.
        -- do 2 f_equal. apply refs_eq; [lia |].
           by rewrite <- !(assoc_L (++)).
        -- cbn [hand_over]. rewrite <- Hnext, <- Hevs. reflexivity.
    + exists (Some tref), layerTypes, [].
      rewrite (loop_mismatch _ _ _ _ _ _ _ Hi Hdp Hag). simpl.
      by rewrite <- refs_eta.
Qed.

(** Inside a [hand_over] the handles taken and the handles given up
    never differ by more than one, and a handle given up is the one
    held at the start or one taken before. *)
Lemma hand_over_prefix (p : nat) :
  ∀ (a : nat) (pre suf : list cache.event),
    hand_over a p = pre ++ suf →
    length (cache.acquired pre) ≤ length (cache.released pre) + 1
    ∧ length (cache.released pre) ≤ length (cache.acquired pre) + 1
    ∧ ∀ h, h ∈ cache.released pre → h = a ∨ h ∈ cache.acquired pre.
Proof.
  induction p as [|p IH]; intros a pre suf Heq; simpl in Heq.
  - destruct pre as [|e [|e' pre]]; simpl in Heq.
    + split; [simpl; lia | split; [simpl; lia |]]. by intros h ?%elem_of_nil.
    + injection Heq as <- _.
      split; [simpl; lia | split; [simpl; lia |]].
      intros h ->%list_elem_of_singleton. by left.
    + discriminate.
  - destruct pre as [|e [|e' pre]]; simpl in Heq.
    + split; [simpl; lia | split; [simpl; lia |]]. by intros h ?%elem_of_nil.
    + injection Heq as <- _.
      split; [simpl; lia | split; [simpl; lia |]]. by intros h ?%elem_of_nil.
    + injection Heq as <- <- Heq.
      destruct (IH _ _ _ Heq) as (Hacq & Hrel & Hown).
      split; [simpl; lia | split; [simpl; lia |]].
      intros h [-> | Hin]%elem_of_cons; [by left |].
      right. destruct (Hown h Hin) as [-> | Hacq'].
      * apply list_elem_of_here.
      * by apply list_elem_of_further.
Qed.

(** The events of the whole call on a reference that is not [nil]. *)
Lemma GetMediaTypeForLayers_hand_over (diffPairs : list DiffPair)
    (ref : cache.ImmutableRef) (s : cache.refs) :
  ∃ layerTypes : list string,
    GetMediaTypeForLayers diffPairs (Some ref) s
    = Some (layerTypes,
            {| cache.next :=
                 cache.next s
                 + S (min (agreeing (cache.chain (cache.record ref))
                             (reverse diffPairs))
                          (length (cache.chain (cache.record ref)) - 1));
               cache.trace :=
                 cache.trace s
                 ++ cache.Acquired (cache.next s)
                    :: hand_over (cache.next s)
                         (min (agreeing (cache.chain (cache.record ref))
                                 (reverse diffPairs))
                              (length (cache.chain (cache.record ref)) - 1))
            |}).
Proof.
  unfold GetMediaTypeForLayers.
  unfold mbind, cache.Go_bind, cache.Clone, cache.acquire.
  destruct (loop_trace diffPairs (length diffPairs) 0
              {| cache.handle := cache.next s;
                 cache.record := cache.record ref |}
              (replicate (length diffPairs) "")
              {| cache.next := S (cache.next s);
                 cache.trace :=
                   cache.trace s ++ [cache.Acquired (cache.next s)] |})
    as (last & layerTypes & evs & -> & Hevs);
    [done | by rewrite length_replicate | done |].
  cbn [cache.handle cache.record cache.next cache.trace] in Hevs |- *.
  rewrite drop_0 in Hevs |- *.
  exists layerTypes. destruct last as [t|].
  - unfold cache.Release, mret, cache.Go_ret.
    cbn [cache.next cache.trace].
    do 2 f_equal. apply refs_eq; [lia |].
    by rewrite <- Hevs, <- !(assoc_L (++)).
  - unfold mret, cache.Go_ret. do 2 f_equal. apply refs_eq; [lia |].
    rewrite app_nil_r in Hevs. by rewrite <- Hevs, <- !(assoc_L (++)).
Qed.

(** X13: on a reference that is not [nil] the call takes and gives up
    handles in one fixed order: the clone, then for each parent it
    moves to the parent's handle followed by the release of the
    child's, and last the release of the handle it ended on.  It moves
    to [p] parents, [p] being the number of agreeing steps but at most
    the number of references above the first; so it takes [p + 1]
    handles, never more than the chain has references and never more
    than one per pair plus the clone. *)
Theorem GetMediaTypeForLayers_trace (diffPairs : list DiffPair)
    (ref : cache.ImmutableRef) (s : cache.refs) :
  ∃ (layerTypes : list string) (p : nat),
    GetMediaTypeForLayers diffPairs (Some ref) s
    = Some (layerTypes,
            {| cache.next := cache.next s + S p;
               cache.trace :=
                 cache.trace s
                 ++ cache.Acquired (cache.next s)
                    :: hand_over (cache.next s) p |})
    ∧ p = min (agreeing (cache.chain (cache.record ref)) (reverse diffPairs))
              (length (cache.chain (cache.record ref)) - 1)
    ∧ S p ≤ length (cache.chain (cache.record ref))
    ∧ p ≤ length diffPairs.
Proof.
  destruct (GetMediaTypeForLayers_hand_over diffPairs ref s)
    as [layerTypes Hrun].
  eexists layerTypes, _. split; [exact Hrun |]. split; [reflexivity |].
  destruct (agreeing_spec (cache.chain (cache.record ref))
              (reverse diffPairs)) as (Hl & Hd & _).
  rewrite length_reverse in Hd.
  pose proof (chain_length_pos (cache.record ref)). lia.
Qed.

(** X14: while the call runs on a reference that is not [nil], it
    never holds more than two handles of its own at once, and it never
    releases a handle it has not acquired before: this holds after
    every event of its trace. *)
Theorem at_most_two_handles (diffPairs : list DiffPair)
    (ref : cache.ImmutableRef) (s : cache.refs) :
  ∃ (layerTypes : list string) (s' : cache.refs) (evs : list cache.event),
    GetMediaTypeForLayers diffPairs (Some ref) s = Some (layerTypes, s')
    ∧ cache.trace s' = cache.trace s ++ evs
    ∧ ∀ pre suf, evs = pre ++ suf →
        length (cache.released pre) ≤ length (cache.acquired pre)
        ∧ length (cache.acquired pre) ≤ length (cache.released pre) + 2
        ∧ ∀ h, h ∈ cache.released pre → h ∈ cache.acquired pre.
Proof.
  destruct (GetMediaTypeForLayers_hand_over diffPairs ref s)
    as [layerTypes Hrun].
  eexists layerTypes, _, _. split; [exact Hrun |].
  split; [reflexivity |].
  intros [|e pre] suf Heq; simpl in Heq.
  - split; [simpl; lia | split; [simpl; lia |]]. by intros h ?%elem_of_nil.
  - injection Heq as <- Heq.
    destruct (hand_over_prefix _ _ _ _ Heq) as (Hacq & Hrel & Hown).
    split; [simpl; lia | split; [simpl; lia |]].
    intros h Hin. simpl in Hin |- *.
    destruct (Hown h Hin) as [-> | Hacq'].
    + apply list_elem_of_here.
    + by apply list_elem_of_further.
Qed.

(** ** Detection, read off the outcome of the read *)

Section detection_by_read.

Context `{Reader R}.

(** X15: once the store has opened the blob, the one [Read] decides
    what [DetectLayerMediaType] returns.  A read failing with an error
    other than [io.EOF] makes it fail with that error, whatever bytes
    came with it; otherwise it returns the gzip media type of the
    requested convention when the first three bytes delivered are
    [0x1F 0x8B 0x08], and the uncompressed one in every other case. *)
Theorem DetectLayerMediaType_by_read (cs : Store R) (id : Digest)
    (oci : bool) (ra : R) (data : list byte) (err : option error) :
  ReaderAt cs id = inl ra →
  Read ra 10 = (data, err) →
  (∀ e, err = Some e → e ≠ EOF →
        DetectLayerMediaType cs id oci = ("", Some e))
  ∧ (err = None ∨ err = Some EOF →
     take 3 data = [x1f; x8b; x08] →
     DetectLayerMediaType cs id oci =
       (if oci then ocispec.MediaTypeImageLayerGzip
        else images.MediaTypeDockerSchema2LayerGzip, None))
  ∧ (err = None ∨ err = Some EOF →
     take 3 data ≠ [x1f; x8b; x08] →
     DetectLayerMediaType cs id oci =
       (if oci then ocispec.MediaTypeImageLayer
        else images.MediaTypeDockerSchema2Layer, None)).
Proof.
  intros Hopen Hread. unfold DetectLayerMediaType. rewrite Hopen.
  rewrite (detectCompressionType_read _ _ _ Hread).
  destruct (match_signatures_delivered data) as [Hyes Hno].
  split; [| split].
  - intros e -> Hne. by rewrite bool_decide_eq_true_2.
  - intros [-> | ->] Hsig; rewrite ?bool_decide_eq_false_2
      by (intros Hne; by apply Hne); rewrite (Hyes Hsig); by destruct oci.
  - intros [-> | ->] Hsig; rewrite ?bool_decide_eq_false_2
      by (intros Hne; by apply Hne); rewrite (Hno Hsig); by destruct oci.
Qed.

End detection_by_read.

Lemma DetectLayerMediaType_by_read_witness :
  ReaderAt Sample.store "sha256:gzip" = inl (Scripted Sample.gzip_blob None)
  ∧ Read (Scripted Sample.gzip_blob None) 10
    = ([x1f; x8b; x08; x00; x00; x00; x00; x00; x00; x03], None)
  ∧ DetectLayerMediaType Sample.store "sha256:gzip" true
    = (ocispec.MediaTypeImageLayerGzip, None).
Proof.
  assert (ReaderAt Sample.store "sha256:gzip"
          = inl (Scripted Sample.gzip_blob None)) as Hopen by reflexivity.
  assert (Read (Scripted Sample.gzip_blob None) 10
          = ([x1f; x8b; x08; x00; x00; x00; x00; x00; x00; x03], None))
    as Hread by reflexivity.
  split; [exact Hopen | split; [exact Hread |]].
  destruct (DetectLayerMediaType_by_read Sample.store "sha256:gzip" true
              _ _ _ Hopen Hread) as (_ & Hgzip & _).
  apply Hgzip; [by left | reflexivity].
Defined.
